(** * EnumString: compile-time generation of enum strings

    A shallow embedding of [include/EnumString/enum_string.h] and of the
    demonstration program [src/EnumString/main.cpp].

    Conventions of the embedding.
    - [std::size_t] is the 64-bit unsigned type of the toolchain the library
      was tested with; arithmetic on it is written with an explicit [wrap].
    - A [char const*] is an object identity together with an offset; the
      characters are read through a memory that maps every object of static
      or temporary storage to its characters.  The terminator of a
      null-terminated string is implicit: a string object holds its text.
    - An enumeration is its declaration: the members take the default
      values 0, 1, 2, ... as the header requires.
    - Anything the translator rejects or cannot evaluate as a constant
      expression is [None]. *)

From Stdlib Require Import ZArith Ascii String List Bool Lia.
From Stdlib Require Import DecimalString HexString.
Import ListNotations.
Local Open Scope Z_scope.

Definition chars : Type := list ascii.

(** A string literal of the source, as characters. *)
Definition lit (s : string) : chars := list_ascii_of_string s.

(** ** std::size_t *)

Module size_t.
Definition modulus : Z := 2 ^ 64.
Definition wrap (z : Z) : Z := z mod modulus.
(** The largest value; [std::string_view::npos] is [size_type(-1)]. *)
Definition max : Z := wrap (-1).
End size_t.

Definition npos : Z := size_t.max.

(** ** Types and objects *)

(** An enumeration declaration: [enum class Name { m0, m1, ... }] when
    [enum_scoped], [enum Name { ... }] otherwise.  Member [i] of the list has
    the value [i]. *)
Record EnumDecl : Type := {
  enum_name : chars;
  enum_scoped : bool;
  enum_members : list chars
}.

(** A type a template can be instantiated with: an enumeration, or any other
    type, of which only the names usable as [T::name] matter here. *)
Inductive type : Type :=
| EnumTy (d : EnumDecl)
| OtherTy (static_names : list chars).

(** The objects that hold characters. *)
Inductive object : Type :=
| function_name_obj (d : EnumDecl) (E : Z)  (* the string n<E>() returns *)
| enumName_obj (d : EnumDecl) (E : Z)       (* enumName<EnumT, E>.data_ *)
| literal_obj (s : chars)                   (* a string literal *)
| temporary_obj (k : nat)                   (* a temporary FixedString *)
| null_obj.                                 (* what the null pointer points to *)

Record char_ptr : Type := { p_obj : object; p_off : Z }.

Definition ptr_add (p : char_ptr) (k : Z) : char_ptr :=
  {| p_obj := p_obj p; p_off := p_off p + k |}.

Definition Memory : Type := object -> chars.

(** ** std::string_view *)

Record string_view : Type := { sv_data : char_ptr; sv_size : Z }.

(** The characters a view spans. *)
Definition sv_chars (m : Memory) (v : string_view) : chars :=
  firstn (Z.to_nat (sv_size v))
         (skipn (Z.to_nat (p_off (sv_data v))) (m (p_obj (sv_data v)))).

(** Construction of a view from a [char const *]: it runs to the end of the
    string. *)
Definition string_view_of (m : Memory) (p : char_ptr) : string_view :=
  {| sv_data := p;
     sv_size := Z.of_nat (length (m (p_obj p))) - p_off p |}.

(** Index of the first [c] in [s]. *)
Fixpoint lfind (c : ascii) (s : chars) : option nat :=
  match s with
  | [] => None
  | x :: r => if Ascii.eqb x c then Some O else option_map S (lfind c r)
  end.

(** Index of the last [c] in [s]. *)
Fixpoint rfind (c : ascii) (s : chars) : option nat :=
  match s with
  | [] => None
  | x :: r =>
      match rfind c r with
      | Some k => Some (S k)
      | None => if Ascii.eqb x c then Some O else None
      end
  end.

(** [v.find_last_of(c)] *)
Definition find_last_of (m : Memory) (v : string_view) (c : ascii) : Z :=
  match rfind c (sv_chars m v) with
  | Some k => Z.of_nat k
  | None => npos
  end.

(** [v.find_first_of(c, pos)] *)
Definition find_first_of (m : Memory) (v : string_view) (c : ascii) (pos : Z) : Z :=
  match lfind c (skipn (Z.to_nat pos) (sv_chars m v)) with
  | Some k => pos + Z.of_nat k
  | None => npos
  end.

(** [v.substr(pos, count)]; [None] is [std::out_of_range]. *)
Definition substr (v : string_view) (pos count : Z) : option string_view :=
  if sv_size v <? pos then None
  else Some {| sv_data := ptr_add (sv_data v) pos;
               sv_size := Z.min count (sv_size v - pos) |}.

Fixpoint chars_eqb (a b : chars) : bool :=
  match a, b with
  | [], [] => true
  | x :: a', y :: b' => Ascii.eqb x y && chars_eqb a' b'
  | _, _ => false
  end.

(** [operator==] of two views: same size and same characters. *)
Definition sv_eqb (m : Memory) (a b : string_view) : bool :=
  (sv_size a =? sv_size b) && chars_eqb (sv_chars m a) (sv_chars m b).

(** [std::copy_n(str, n, out)]: the [n] characters read from [str]; reading
    outside the object pointed into is not a constant expression. *)
Definition copy_n (m : Memory) (str : char_ptr) (n : Z) : option chars :=
  let arr := m (p_obj str) in
  if (0 <=? p_off str) && (0 <=? n) && (p_off str + n <=? Z.of_nat (length arr))
  then Some (firstn (Z.to_nat n) (skipn (Z.to_nat (p_off str)) arr))
  else None.

(** ** FixedString *)

(** [FixedString<Size>]: the template argument and the member [data_]. *)
Record FixedString : Type := { Size : Z; data_ : chars }.

(** The constructor of [FixedString<Size>] from [char const * str]. *)
Definition FixedString_ctor (m : Memory) (size : Z) (str : char_ptr)
  : option FixedString :=
  match copy_n m str size with
  | Some cs => Some {| Size := size; data_ := cs |}
  | None => None
  end.

(** [FixedString<Size>::operator std::string_view()], for the buffer [f]
    stored in the object [self]. *)
Definition FixedString_view (self : object) (f : FixedString) : string_view :=
  {| sv_data := {| p_obj := self; p_off := 0 |}; sv_size := Size f |}.

(** ** toEnumName *)

Definition colon : ascii := ":"%char.
Definition closing : ascii := ">"%char.

(** [start] of [toEnumName], for the view [funcName]. *)
Definition name_start (m : Memory) (funcName : string_view) : Z :=
  size_t.wrap (find_last_of m funcName colon + 1).

(** [end] of [toEnumName]. *)
Definition name_end (m : Memory) (funcName : string_view) : Z :=
  find_first_of m funcName closing (name_start m funcName).

(** [nameView] of [toEnumName]. *)
Definition name_view (m : Memory) (funcName : string_view) : option string_view :=
  let start := name_start m funcName in
  let end_ := name_end m funcName in
  substr funcName start (size_t.wrap (end_ - start)).

(** The body of [toEnumName] for the string [n<E>()] returned. *)
Definition toEnumName_at (m : Memory) (name : char_ptr) : option FixedString :=
  let funcName := string_view_of m name in
  match name_view m funcName with
  | Some nameView => FixedString_ctor m (sv_size nameView) (sv_data nameView)
  | None => None
  end.

(** ** The SizedEnum concept *)

Definition enumSize : chars := lit "enumSize".

(** [std::is_scoped_enum_v<EnumT>] *)
Definition is_scoped_enum_v (T : type) : bool :=
  match T with
  | EnumTy d => enum_scoped d
  | OtherTy _ => false
  end.

(** Whether [EnumT::name] is a valid expression. *)
Definition names_member (T : type) (name : chars) : bool :=
  match T with
  | EnumTy d => existsb (chars_eqb name) (enum_members d)
  | OtherTy static_names => existsb (chars_eqb name) static_names
  end.

(** [concept SizedEnum] *)
Definition SizedEnum (T : type) : bool :=
  is_scoped_enum_v T && names_member T enumSize.

(** ** The array of names *)

(** [EnumStringArray<EnumT>], a [std::array] of views. *)
Definition EnumStringArray : Type := list string_view.

Fixpoint index_of (name : chars) (members : list chars) : option nat :=
  match members with
  | [] => None
  | x :: r => if chars_eqb x name then Some O else option_map S (index_of name r)
  end.

(** [std::to_underlying(EnumT::member)]: members have the default values. *)
Definition to_underlying (d : EnumDecl) (member : chars) : option Z :=
  option_map Z.of_nat (index_of member (enum_members d)).

(** [std::make_index_sequence<N>] *)
Definition make_index_sequence (N : Z) : list Z :=
  map Z.of_nat (seq 0 (Z.to_nat N)).

(** A value-initialised [std::string_view]: the null pointer, size 0. *)
Definition empty_view : string_view :=
  {| sv_data := {| p_obj := null_obj; p_off := 0 |}; sv_size := 0 |}.

(** Aggregate initialisation of a [std::array] of [N] views from a list of
    initialisers: too many is ill-formed, the elements left over are
    value-initialised. *)
Definition array_init (N : Z) (inits : list string_view) : option EnumStringArray :=
  if Z.of_nat (length inits) <=? N
  then Some (inits ++ repeat empty_view (Z.to_nat N - length inits))
  else None.

Fixpoint sequence {A : Type} (xs : list (option A)) : option (list A) :=
  match xs with
  | [] => Some []
  | x :: r =>
      match x, sequence r with
      | Some a, Some l => Some (a :: l)
      | _, _ => None
      end
  end.

Section Translation.

(** What [std::source_location::current().function_name()] gives inside
    [n<E>], for [E] the value [E] of the enumeration [d]: the text is the
    toolchain's. *)
Variable function_name : EnumDecl -> Z -> chars.

(** The string objects of the program. *)
Definition literals : Memory := fun o =>
  match o with
  | function_name_obj d E => function_name d E
  | literal_obj s => s
  | enumName_obj _ _ => []
  | temporary_obj _ => []
  | null_obj => []
  end.

(** [n<E>()] *)
Definition n (d : EnumDecl) (E : Z) : char_ptr :=
  {| p_obj := function_name_obj d E; p_off := 0 |}.

(** [toEnumName<EnumT, E>()] *)
Definition toEnumName (d : EnumDecl) (E : Z) : option FixedString :=
  toEnumName_at literals (n d E).

(** [enumName<EnumT, E>]: the object is [enumName_obj d E]. *)
Definition enumName (d : EnumDecl) (E : Z) : option FixedString :=
  toEnumName d E.

(** [static_cast<EnumT>(I)] *)
Definition static_cast_enum (I : Z) : Z := I.

(** [generateEnumNames<EnumT>(std::index_sequence<I...>)] *)
Definition generateEnumNames (d : EnumDecl) (Is : list Z) : option EnumStringArray :=
  match to_underlying d enumSize with
  | Some N =>
      match sequence (map (fun I =>
               let E := static_cast_enum I in
               option_map (FixedString_view (enumName_obj d E)) (enumName d E)) Is) with
      | Some inits => array_init N inits
      | None => None
      end
  | None => None
  end.

(** [enumNames<EnumT>] *)
Definition enumNames (d : EnumDecl) : option EnumStringArray :=
  match to_underlying d enumSize with
  | Some N => generateEnumNames d (make_index_sequence N)
  | None => None
  end.

(** The characters of every object of static storage. *)
Definition image : Memory := fun o =>
  match o with
  | enumName_obj d E =>
      match enumName d E with
      | Some f => data_ f
      | None => []
      end
  | _ => literals o
  end.

(** Static storage: the characters, and the constant [enumNames<EnumT>] of
    every enumeration. *)
Record Static : Type := {
  static_chars : Memory;
  static_enumNames : EnumDecl -> option EnumStringArray
}.

(** Static storage as translation leaves it. *)
Definition translation : Static :=
  {| static_chars := image; static_enumNames := enumNames |}.

End Translation.

(** ** The running program *)

(** The state of a run: static storage, the array objects of automatic
    storage in the order of their declaration, and the standard output. *)
Record State : Type := {
  static : Static;
  automatic : list EnumStringArray;
  stdout : chars
}.

(** The state in which [main] is entered. *)
Definition start (function_name : EnumDecl -> Z -> chars) : State :=
  {| static := translation function_name; automatic := []; stdout := [] |}.

(** Computations on the state; [None] is a program that does not translate,
    or an access outside an object. *)
Definition M (A : Type) : Type := State -> option (A * State).

Definition ret {A : Type} (a : A) : M A := fun st => Some (a, st).

Definition bind {A B : Type} (c : M A) (k : A -> M B) : M B := fun st =>
  match c st with
  | Some (a, st') => k a st'
  | None => None
  end.

Notation "x <- c ;; k" := (bind c (fun x => k))
  (at level 61, c at next level, right associativity).
Notation "c ;;; k" := (bind c (fun _ => k))
  (at level 61, right associativity).

(** [makeEnumString<EnumT>()]: the constraint, then a copy of
    [enumNames<EnumT>]. *)
Definition makeEnumString (T : type) : M EnumStringArray := fun st =>
  if SizedEnum T then
    match T with
    | EnumTy d =>
        match static_enumNames (static st) d with
        | Some names => Some (names, st)
        | None => None
        end
    | OtherTy _ => None
    end
  else None.

(** [auto x = value;]: a new array object of automatic storage; the result
    designates it. *)
Definition declare (value : EnumStringArray) : M nat := fun st =>
  Some (length (automatic st),
        {| static := static st;
           automatic := automatic st ++ [value];
           stdout := stdout st |}).

(** The value of the array object [x]. *)
Definition read (x : nat) : M EnumStringArray := fun st =>
  match nth_error (automatic st) x with
  | Some a => Some (a, st)
  | None => None
  end.

Fixpoint update {A : Type} (l : list A) (i : nat) (v : A) : option (list A) :=
  match l, i with
  | [], _ => None
  | _ :: r, O => Some (v :: r)
  | x :: r, S i' => option_map (cons x) (update r i' v)
  end.

(** [x[i] = v;] *)
Definition assign (x : nat) (i : nat) (v : string_view) : M unit := fun st =>
  match nth_error (automatic st) x with
  | Some a =>
      match update a i v with
      | Some a' =>
          match update (automatic st) x a' with
          | Some autos =>
              Some (tt, {| static := static st; automatic := autos;
                           stdout := stdout st |})
          | None => None
          end
      | None => None
      end
  | None => None
  end.

(** Writing characters to the standard output. *)
Definition print (s : chars) : M unit := fun st =>
  Some (tt, {| static := static st; automatic := automatic st;
               stdout := stdout st ++ s |}).

Definition newline : chars := [ascii_of_nat 10].

(** [std::println(text)] for a format string without replacement fields. *)
Definition println (text : chars) : M unit := print (text ++ newline).

(** A decimal integer in a field of width 2: the default alignment of an
    integer is to the right, the fill is a space. *)
Definition format_width2 (index : Z) : chars :=
  let digits := lit (NilZero.string_of_int (Z.to_int index)) in
  repeat " "%char (2 - length digits) ++ digits.

(** [std::println("{:2}: {}", index, name)] *)
Definition println_index_name (index : Z) (name : string_view) : M unit := fun st =>
  println (format_width2 index ++ lit ": " ++ sv_chars (static_chars (static st)) name) st.

(** [std::views::enumerate] *)
Definition enumerate {A : Type} (xs : list A) : list (Z * A) :=
  combine (map Z.of_nat (seq 0 (length xs))) xs.

(** A range-based [for]. *)
Fixpoint for_each {A : Type} (xs : list A) (body : A -> M unit) : M unit :=
  match xs with
  | [] => ret tt
  | x :: r => body x ;;; for_each r body
  end.

(** ** main.cpp *)

Definition Fruit : EnumDecl :=
  {| enum_name := lit "Fruit";
     enum_scoped := true;
     enum_members := map lit
       [ "apple"; "banana"; "cherry"; "grape"; "grapefruit"; "kiwi"; "lemon";
         "lime"; "melon"; "orange"; "pear"; "pineapple"; "plum"; "raspberry";
         "strawberry"; "enumSize" ]%string |}.

(** [main]; the result is the exit status: flowing off the end of [main]
    returns 0. *)
Definition main : M Z :=
  names <- makeEnumString (EnumTy Fruit) ;;
  fruitNames <- declare names ;;
  println (lit "List of fruits:" ++ newline) ;;;
  range <- read fruitNames ;;
  for_each (enumerate range)
           (fun '(index, name) => println_index_name index name) ;;;
  ret 0.

(** ** Identifiers and the tested toolchain's function names *)

Definition is_digit (c : ascii) : bool :=
  let k := N_of_ascii c in ((48 <=? k) && (k <=? 57))%N.

Definition is_nondigit (c : ascii) : bool :=
  let k := N_of_ascii c in
  (((65 <=? k) && (k <=? 90)) || ((97 <=? k) && (k <=? 122)) || (k =? 95))%N.

(** An identifier: letters, digits and underscores, not starting with a
    digit. *)
Definition is_identifier (s : chars) : bool :=
  match s with
  | [] => false
  | c :: _ => is_nondigit c && forallb (fun x => is_nondigit x || is_digit x) s
  end.

(** The spelling of the template argument [E] of [n<E>]: the qualified
    enumerator when the value has one, a cast of the value otherwise. *)
Definition template_argument (d : EnumDecl) (E : Z) : chars :=
  match (if 0 <=? E then nth_error (enum_members d) (Z.to_nat E) else None) with
  | Some member => enum_name d ++ lit "::" ++ member
  | None => lit "(enum " ++ enum_name d ++ lit ")" ++ lit (HexString.of_Z E)
  end.

(** Modelled from the spec: the SignatureProbe, whose text comes from the
    toolchain and not from the header.  This is the text the header's
    comments quote for the toolchain it was tested with,
    [auto __cdecl EnumString::n<Fruit::apple>(void) noexcept]. *)
Definition msvc_function_name (d : EnumDecl) (E : Z) : chars :=
  lit "auto __cdecl EnumString::n<" ++ template_argument d E
      ++ lit ">(void) noexcept".

(** ** Vocabulary of the properties *)

(** [p] is the position of the last [c] in [s]. *)
Definition last_occurrence (c : ascii) (s : chars) (p : nat) : Prop :=
  nth_error s p = Some c /\ forall j, (p < j)%nat -> nth_error s j <> Some c.



(** The size of a string fits [std::size_t]. *)
Definition fits_size_t (s : chars) : Prop := Z.of_nat (length s) <= npos.

(** The contract of the SignatureProbe for the identifier [ident]: the
    signature contains it with the scope separator immediately before it and
    the closing bracket immediately after it. *)
Definition delimits (s ident : chars) : Prop :=
  exists pre post, s = pre ++ lit "::" ++ ident ++ lit ">" ++ post.

(** The same, with nothing that looks like a scope separator after the
    closing bracket. *)
Definition delimits_last (s ident : chars) : Prop :=
  exists pre post,
    s = pre ++ lit "::" ++ ident ++ lit ">" ++ post /\ ~ In colon post.

(** Where the name starts in the signature [s]: after the last colon, at 0
    when there is none. *)
Definition start_position (s : chars) : nat :=
  match rfind colon s with
  | Some k => S k
  | None => O
  end.

(** The characters of [s] from [start_position] up to the first closing
    bracket there, or to the end of [s] when there is none. *)
Definition name_text (s : chars) : chars :=
  let rest := skipn (start_position s) s in
  match lfind closing rest with
  | Some k => firstn k rest
  | None => rest
  end.

(** At least [L] characters can be read from [str]. *)
Definition readable (m : Memory) (str : char_ptr) (L : Z) : Prop :=
  0 <= p_off str /\ 0 <= L /\ p_off str + L <= Z.of_nat (length (m (p_obj str))).

(** The characters [copy_n] reads. *)
Definition source_chars (m : Memory) (str : char_ptr) (L : Z) : chars :=
  firstn (Z.to_nat L) (skipn (Z.to_nat (p_off str)) (m (p_obj str))).

(** The object [self] holds the buffer [f]. *)
Definition stored_at (m : Memory) (self : object) (f : FixedString) : Prop :=
  m self = data_ f.

(** ["..."sv] *)
Definition sv_literal (s : chars) : string_view :=
  {| sv_data := {| p_obj := literal_obj s; p_off := 0 |};
     sv_size := Z.of_nat (length s) |}.

(** A memory in which the temporary [k] holds the buffer [f]. *)
Definition with_temporary (m : Memory) (k : nat) (f : FixedString) : Memory :=
  fun o =>
    match o with
    | temporary_obj k' => if Nat.eqb k k' then data_ f else m o
    | _ => m o
    end.

(** The comparison [text sv == FixedString<size>(str)] of the header's
    [static_assert]s. *)
Definition static_assert_eq (text : chars) (size : Z) (str : char_ptr) : option bool :=
  let m := literals (fun _ _ => []) in
  match FixedString_ctor m size str with
  | Some f =>
      Some (sv_eqb (with_temporary m 0 f) (sv_literal text)
                   (FixedString_view (temporary_obj 0) f))
  | None => None
  end.

(** Both positions of [toEnumName] lie within the signature, in order. *)
Definition positions_within (function_name : EnumDecl -> Z -> chars)
           (d : EnumDecl) (E : Z) : Prop :=
  let m := literals function_name in
  let funcName := string_view_of m (n d E) in
  0 <= name_start m funcName /\
  name_start m funcName <= name_end m funcName /\
  name_end m funcName <= sv_size funcName.

(** [funcName] of [toEnumName<EnumT, E>]. *)
Definition funcName (function_name : EnumDecl -> Z -> chars)
           (d : EnumDecl) (E : Z) : string_view :=
  string_view_of (literals function_name) (n d E).

(** The sentinel is the final member of the declaration. *)
Definition sentinel_final (d : EnumDecl) : Prop :=
  exists names, enum_members d = names ++ [enumSize].

(** A sized enumeration whose members before the sentinel are [names]:
    scoped, its members are [names], the sentinel and whatever is declared
    after it ([rest], nothing in a closed enumeration), and the names are
    identifiers other than the sentinel's. *)
Definition sized_enum (d : EnumDecl) (names rest : list chars) : Prop :=
  enum_scoped d = true /\
  enum_members d = names ++ enumSize :: rest /\
  ~ In enumSize names /\
  Forall (fun x => is_identifier x = true) names.

(** Every signature that the instantiation of [enumNames<EnumT>] asks for
    fits [std::size_t]. *)
Definition signatures_fit (function_name : EnumDecl -> Z -> chars)
           (d : EnumDecl) (N : Z) : Prop :=
  forall E, 0 <= E < N -> fits_size_t (function_name d E).

(** The contract of the probe on the named members of [d], in the form the
    tested toolchain meets it. *)
Definition probe_contract (function_name : EnumDecl -> Z -> chars)
           (d : EnumDecl) (names : list chars) : Prop :=
  forall i ident,
    nth_error names i = Some ident ->
    delimits_last (function_name d (Z.of_nat i)) ident.

(** The view [enumNames<EnumT>] holds for the value [E]. *)
Definition enumName_view (function_name : EnumDecl -> Z -> chars)
           (d : EnumDecl) (E : Z) : string_view :=
  {| sv_data := {| p_obj := enumName_obj d E; p_off := 0 |};
     sv_size := Z.of_nat (length (name_text (function_name d E))) |}.

(** An enumeration whose sentinel is declared first. *)
Definition sentinel_first : EnumDecl :=
  {| enum_name := lit "Level";
     enum_scoped := true;
     enum_members := map lit [ "enumSize"; "low"; "high" ]%string |}.

(** An enumeration with the sentinel alone. *)
Definition sentinel_alone : EnumDecl :=
  {| enum_name := lit "Nothing";
     enum_scoped := true;
     enum_members := [enumSize] |}.

(** The named members of [Fruit]. *)
Definition fruit_names : list chars :=
  map lit [ "apple"; "banana"; "cherry"; "grape"; "grapefruit"; "kiwi"; "lemon";
            "lime"; "melon"; "orange"; "pear"; "pineapple"; "plum"; "raspberry";
            "strawberry" ]%string.

(** The lines [main] prints for the names [names], numbered from [k]. *)
Fixpoint listing (k : nat) (names : list chars) : chars :=
  match names with
  | [] => []
  | name :: r =>
      format_width2 (Z.of_nat k) ++ lit ": " ++ name ++ newline ++ listing (S k) r
  end.

(** Lines of text, each ended by a newline. *)
Definition unlines (ls : list string) : chars :=
  concat (map (fun l => lit l ++ newline) ls).

Definition fruit_lines : list string :=
  [ " 0: apple"; " 1: banana"; " 2: cherry"; " 3: grape"; " 4: grapefruit";
    " 5: kiwi"; " 6: lemon"; " 7: lime"; " 8: melon"; " 9: orange"; "10: pear";
    "11: pineapple"; "12: plum"; "13: raspberry"; "14: strawberry" ]%string.

(** What [main] writes: the header, an empty line, the fifteen fruits. *)
Definition main_output : chars :=
  unlines ("List of fruits:" :: "" :: fruit_lines)%string.

(** The header immediately followed by the fifteen fruits. *)
Definition header_then_fruits : chars :=
  unlines ("List of fruits:" :: fruit_lines)%string.

(** Every element of [table] is the view of the buffer [enumName<EnumT, E>]
    of its index: it points to the start of that object, which holds the
    buffer in the memory [m], and has the buffer's size. *)
Definition views_of_enumName (function_name : EnumDecl -> Z -> chars)
           (d : EnumDecl) (N : Z) (m : Memory) (table : EnumStringArray) : Prop :=
  forall i, (i < Z.to_nat N)%nat ->
    exists f,
      enumName function_name d (Z.of_nat i) = Some f /\
      nth_error table i = Some (FixedString_view (enumName_obj d (Z.of_nat i)) f) /\
      stored_at m (enumName_obj d (Z.of_nat i)) f.

(** Two calls in a row. *)
Definition two_calls (T : type) : M (EnumStringArray * EnumStringArray) :=
  first <- makeEnumString T ;;
  second <- makeEnumString T ;;
  ret (first, second).

(** Two tables declared from two calls, an assignment to element [i] of the
    first one, and a third call; the result is the two array objects, their
    values after the assignment and the table of the third call. *)
Definition two_copies (T : type) (i : nat) (v : string_view)
  : M (nat * nat * EnumStringArray * EnumStringArray * EnumStringArray) :=
  a <- makeEnumString T ;;
  x <- declare a ;;
  b <- makeEnumString T ;;
  y <- declare b ;;
  assign x i v ;;;
  after_x <- read x ;;
  after_y <- read y ;;
  c <- makeEnumString T ;;
  ret (x, y, after_x, after_y, c).

(** The view [v] covers the whole object it points to, from its first
    character to its last. *)
Definition spans_object (m : Memory) (v : string_view) : Prop :=
  p_off (sv_data v) = 0 /\
  sv_size v = Z.of_nat (length (m (p_obj (sv_data v)))).


(** * Properties *)

(** ** std::size_t *)

Lemma modulus_val : size_t.modulus = 18446744073709551616.
Proof. reflexivity. Qed.

Lemma npos_val : npos = 18446744073709551615.
Proof. reflexivity. Qed.

Lemma wrap_small (z : Z) : 0 <= z <= npos -> size_t.wrap z = z.
Proof.
  intros H. unfold size_t.wrap. rewrite npos_val in H. rewrite modulus_val.
  apply Z.mod_small. lia.
Qed.

Lemma wrap_npos_succ : size_t.wrap (npos + 1) = 0.
Proof. reflexivity. Qed.

(** ** Searching a character *)

Lemma ascii_eqb_true (x c : ascii) : Ascii.eqb x c = true <-> x = c.
Proof. apply Ascii.eqb_eq. Qed.

Lemma lfind_None (c : ascii) (s : chars) : lfind c s = None <-> ~ In c s.
Proof.
  induction s as [|x r IH]; simpl.
  - tauto.
  - destruct (Ascii.eqb x c) eqn:Hx.
    + apply ascii_eqb_true in Hx. split; [discriminate | intros H; exfalso; auto].
    + apply Ascii.eqb_neq in Hx. destruct (lfind c r); simpl.
      * split; [discriminate |]. intros H. exfalso. apply H. right.
        destruct (in_dec ascii_dec c r) as [I | I]; [exact I |].
        apply IH in I. discriminate.
      * split; [| reflexivity]. intros _ [E | I]; [auto | now apply IH in I].
Qed.

Lemma lfind_Some (c : ascii) (s : chars) (k : nat) :
  lfind c s = Some k ->
  nth_error s k = Some c /\ forall j, (j < k)%nat -> nth_error s j <> Some c.
Proof.
  revert k. induction s as [|x r IH]; simpl; intros k H; [discriminate |].
  destruct (Ascii.eqb x c) eqn:Hx.
  - injection H as <-. apply ascii_eqb_true in Hx. subst x. split; [reflexivity |].
    intros j Hj. lia.
  - apply Ascii.eqb_neq in Hx. destruct (lfind c r) as [k'|]; [| discriminate].
    injection H as <-. destruct (IH k' eq_refl) as [Hk Hlt]. split; [exact Hk |].
    intros [|j] Hj; simpl.
    + congruence.
    + apply Hlt. lia.
Qed.

Lemma lfind_app (c : ascii) (a b : chars) :
  ~ In c a -> lfind c (a ++ c :: b) = Some (length a).
Proof.
  induction a as [|x a IH]; simpl; intros H.
  - now rewrite Ascii.eqb_refl.
  - destruct (Ascii.eqb x c) eqn:Hx.
    + apply ascii_eqb_true in Hx. exfalso. auto.
    + rewrite IH by auto. reflexivity.
Qed.

Lemma rfind_None (c : ascii) (s : chars) : rfind c s = None <-> ~ In c s.
Proof.
  induction s as [|x r IH]; simpl.
  - tauto.
  - destruct (rfind c r) as [k|].
    + split; [discriminate |]. intros H. exfalso. apply H. right.
      destruct (in_dec ascii_dec c r) as [I | I]; [exact I |].
      apply IH in I. discriminate.
    + destruct (Ascii.eqb x c) eqn:Hx.
      * apply ascii_eqb_true in Hx. split; [discriminate | intros H; exfalso; auto].
      * apply Ascii.eqb_neq in Hx. split; [| reflexivity].
        intros _ [E | I]; [auto |]. now apply IH in I.
Qed.

Lemma rfind_Some (c : ascii) (s : chars) (k : nat) :
  rfind c s = Some k -> last_occurrence c s k.
Proof.
  revert k. induction s as [|x r IH]; simpl; intros k H; [discriminate |].
  destruct (rfind c r) as [k'|] eqn:Hr.
  - injection H as <-. destruct (IH k' eq_refl) as [Hk Hgt]. split; [exact Hk |].
    intros [|j] Hj; [lia |]. simpl. apply Hgt. lia.
  - destruct (Ascii.eqb x c) eqn:Hx; [| discriminate].
    injection H as <-. apply ascii_eqb_true in Hx. subst x. split; [reflexivity |].
    intros [|j] Hj; [lia |]. simpl. intros F. apply nth_error_In in F.
    now apply rfind_None in F.
Qed.

Lemma rfind_app (c : ascii) (a b : chars) :
  ~ In c b -> rfind c (a ++ c :: b) = Some (length a).
Proof.
  intros H. induction a as [|x a IH]; simpl.
  - apply rfind_None in H. rewrite H. now rewrite Ascii.eqb_refl.
  - now rewrite IH.
Qed.

Lemma rfind_lt (c : ascii) (s : chars) (k : nat) :
  rfind c s = Some k -> (k < length s)%nat.
Proof.
  intros H. apply rfind_Some in H. destruct H as [H _].
  apply nth_error_Some. congruence.
Qed.

Lemma lfind_lt (c : ascii) (s : chars) (k : nat) :
  lfind c s = Some k -> (k < length s)%nat.
Proof.
  intros H. apply lfind_Some in H. destruct H as [H _].
  apply nth_error_Some. congruence.
Qed.



(** ** The extraction of [toEnumName], on the characters of the signature *)

Section Extraction.

Variable m : Memory.
Variable o : object.
Variable s : chars.
Hypothesis holds : m o = s.
Hypothesis fits : fits_size_t s.

Let name : char_ptr := {| p_obj := o; p_off := 0 |}.
Let funcName : string_view := string_view_of m name.

Lemma funcName_size : sv_size funcName = Z.of_nat (length s).
Proof. unfold funcName, string_view_of, name. simpl. rewrite holds. lia. Qed.

Lemma funcName_chars : sv_chars m funcName = s.
Proof.
  unfold sv_chars. rewrite funcName_size. unfold funcName, name. simpl.
  rewrite holds, Nat2Z.id. apply firstn_all.
Qed.

Lemma start_position_le : (start_position s <= length s)%nat.
Proof.
  unfold start_position. destruct (rfind colon s) as [k|] eqn:H; [| lia].
  apply rfind_lt in H. lia.
Qed.

Lemma name_start_eq : name_start m funcName = Z.of_nat (start_position s).
Proof.
  unfold name_start, find_last_of, start_position. rewrite funcName_chars.
  unfold fits_size_t in fits.
  destruct (rfind colon s) as [k|] eqn:H.
  - apply rfind_lt in H. rewrite wrap_small by lia. lia.
  - apply wrap_npos_succ.
Qed.

Lemma name_end_eq :
  name_end m funcName =
  match lfind closing (skipn (start_position s) s) with
  | Some k => Z.of_nat (start_position s + k)
  | None => npos
  end.
Proof.
  unfold name_end, find_first_of. rewrite name_start_eq, funcName_chars, Nat2Z.id.
  destruct (lfind closing (skipn (start_position s) s)); [lia | reflexivity].
Qed.

Lemma name_text_length : (start_position s + length (name_text s) <= length s)%nat.
Proof.
  pose proof start_position_le as Hs. unfold name_text.
  destruct (lfind closing (skipn (start_position s) s)) as [k|] eqn:H.
  - apply lfind_lt in H. rewrite length_skipn in H.
    rewrite length_firstn, length_skipn. lia.
  - rewrite length_skipn. lia.
Qed.

Lemma name_view_eq :
  name_view m funcName =
  Some {| sv_data := {| p_obj := o; p_off := 0 + Z.of_nat (start_position s) |};
          sv_size := Z.of_nat (length (name_text s)) |}.
Proof.
  pose proof start_position_le as Hs. unfold fits_size_t in fits.
  unfold name_view, substr. rewrite name_end_eq, name_start_eq, funcName_size.
  destruct (Z.ltb_spec (Z.of_nat (length s)) (Z.of_nat (start_position s))) as [L | _];
    [lia |].
  unfold ptr_add, funcName, string_view_of, name. simpl. do 2 f_equal.
  unfold name_text.
  destruct (lfind closing (skipn (start_position s) s)) as [k|] eqn:H.
  - apply lfind_lt in H. rewrite length_skipn in H.
    rewrite length_firstn, length_skipn, wrap_small by lia. lia.
  - rewrite length_skipn, wrap_small by lia. lia.
Qed.

Lemma toEnumName_at_eq :
  toEnumName_at m name =
  Some {| Size := Z.of_nat (length (name_text s)); data_ := name_text s |}.
Proof.
  pose proof name_text_length as Hl.
  unfold toEnumName_at. fold funcName. rewrite name_view_eq.
  unfold FixedString_ctor, copy_n. simpl. rewrite holds.
  destruct (Z.leb_spec 0 (Z.of_nat (start_position s))) as [_ | L]; [| lia].
  destruct (Z.leb_spec 0 (Z.of_nat (length (name_text s)))) as [_ | L]; [| lia].
  destruct (Z.leb_spec (Z.of_nat (start_position s) + Z.of_nat (length (name_text s)))
                       (Z.of_nat (length s))) as [_ | L]; [| lia].
  simpl. rewrite !Nat2Z.id. do 2 f_equal.
  unfold name_text. destruct (lfind closing (skipn (start_position s) s)) as [k|] eqn:H.
  - apply lfind_lt in H. rewrite length_firstn. f_equal. lia.
  - apply firstn_all.
Qed.

End Extraction.

Lemma chars_eqb_eq (a b : chars) : chars_eqb a b = true <-> a = b.
Proof.
  revert b. induction a as [|x a IH]; intros [|y b]; simpl;
    try (split; [discriminate | discriminate]); [tauto |].
  rewrite andb_true_iff, ascii_eqb_true, IH. split.
  - intros [-> ->]. reflexivity.
  - intros [= -> ->]. auto.
Qed.

(** ** FixedString *)

Lemma FixedString_ctor_readable (m : Memory) (L : Z) (str : char_ptr) :
  readable m str L ->
  FixedString_ctor m L str = Some {| Size := L; data_ := source_chars m str L |}.
Proof.
  intros (H0 & H1 & H2). unfold FixedString_ctor, copy_n.
  destruct (Z.leb_spec 0 (p_off str)); [| lia].
  destruct (Z.leb_spec 0 L); [| lia].
  destruct (Z.leb_spec (p_off str + L) (Z.of_nat (length (m (p_obj str))))); [| lia].
  reflexivity.
Qed.

Lemma source_chars_length (m : Memory) (L : Z) (str : char_ptr) :
  readable m str L -> Z.of_nat (length (source_chars m str L)) = L.
Proof.
  intros (H0 & H1 & H2). unfold source_chars.
  rewrite length_firstn, length_skipn. lia.
Qed.



(** The first [static_assert] of the header. *)
Example static_assert_name :
  static_assert_eq (lit "name") 4 {| p_obj := literal_obj (lit "name"); p_off := 0 |}
  = Some true.
Proof. reflexivity. Qed.

(** The second one: the text is read in the middle of a longer literal. *)
Example static_assert_retested :
  option_map
    (fun v => static_assert_eq (lit "test") 4 (sv_data v))
    (substr (sv_literal (lit "retested")) 2 4)
  = Some (Some true).
Proof. reflexivity. Qed.


(** ** toEnumName on the signature the toolchain gives *)

Lemma toEnumName_name_text (function_name : EnumDecl -> Z -> chars)
      (d : EnumDecl) (E : Z) :
  fits_size_t (function_name d E) ->
  toEnumName function_name d E =
  Some {| Size := Z.of_nat (length (name_text (function_name d E)));
          data_ := name_text (function_name d E) |}.
Proof.
  intros F. unfold toEnumName, n.
  now apply toEnumName_at_eq with (s := function_name d E).
Qed.

Lemma funcName_name_start (function_name : EnumDecl -> Z -> chars)
      (d : EnumDecl) (E : Z) :
  fits_size_t (function_name d E) ->
  name_start (literals function_name) (funcName function_name d E)
  = Z.of_nat (start_position (function_name d E)).
Proof.
  intros F. unfold funcName, n.
  now apply name_start_eq with (s := function_name d E).
Qed.

Lemma funcName_name_end (function_name : EnumDecl -> Z -> chars)
      (d : EnumDecl) (E : Z) :
  fits_size_t (function_name d E) ->
  name_end (literals function_name) (funcName function_name d E)
  = match lfind closing (skipn (start_position (function_name d E))
                               (function_name d E)) with
    | Some k => Z.of_nat (start_position (function_name d E) + k)
    | None => npos
    end.
Proof.
  intros F. unfold funcName, n.
  now apply name_end_eq with (s := function_name d E).
Qed.





(** ** Signatures that satisfy the contract of the probe *)

Lemma delimited_closing_position (pre ident post : chars) :
  nth_error (pre ++ lit "::" ++ ident ++ lit ">" ++ post)
            (length pre + 2 + length ident) = Some closing.
Proof.
  change (lit "::") with [colon; colon]. change (lit ">") with [closing].
  replace (pre ++ [colon; colon] ++ ident ++ [closing] ++ post)
    with ((pre ++ [colon; colon] ++ ident) ++ closing :: post)
    by (rewrite <- !app_assoc; reflexivity).
  rewrite nth_error_app2 by (rewrite !length_app; simpl; lia).
  rewrite !length_app. simpl.
  now replace (length pre + 2 + length ident - (length pre + S (S (length ident))))%nat
    with O by lia.
Qed.

Lemma delimited_after_closing (pre ident post : chars) (k : nat) :
  (length pre + 2 + length ident < k)%nat ->
  nth_error (pre ++ lit "::" ++ ident ++ lit ">" ++ post) k
  = nth_error post (k - (length pre + 3 + length ident)).
Proof.
  intros H. change (lit "::") with [colon; colon]. change (lit ">") with [closing].
  replace (pre ++ [colon; colon] ++ ident ++ [closing] ++ post)
    with ((pre ++ [colon; colon] ++ ident ++ [closing]) ++ post)
    by (rewrite <- !app_assoc; reflexivity).
  rewrite nth_error_app2 by (rewrite !length_app; simpl; lia).
  f_equal. rewrite !length_app. simpl. lia.
Qed.

Lemma delimits_last_positions (s ident : chars) :
  delimits_last s ident ->
  exists k j,
    rfind colon s = Some k /\
    lfind closing (skipn (S k) s) = Some j /\
    (S k + j < length s)%nat.
Proof.
  intros (pre & post & Hs & Hpost).
  set (g := (length pre + 2 + length ident)%nat).
  assert (Hg : nth_error s g = Some closing)
    by (subst s; apply delimited_closing_position).
  assert (Hlen : (g < length s)%nat) by (apply nth_error_Some; congruence).
  destruct (rfind colon s) as [k|] eqn:Hr.
  - destruct (rfind_Some _ _ _ Hr) as [Hk _].
    assert (Hkg : (k < g)%nat).
    { destruct (Nat.lt_trichotomy k g) as [L | [E | G]]; [exact L | |].
      - subst k. rewrite Hg in Hk. discriminate.
      - exfalso. apply Hpost. subst s.
        rewrite delimited_after_closing in Hk by exact G.
        eapply nth_error_In; eauto. }
    assert (Hin : nth_error (skipn (S k) s) (g - S k) = Some closing).
    { rewrite nth_error_skipn. now replace (S k + (g - S k))%nat with g by lia. }
    destruct (lfind closing (skipn (S k) s)) as [j|] eqn:Hl.
    + exists k, j. split; [reflexivity |]. split; [exact Hl |].
      destruct (lfind_Some _ _ _ Hl) as [_ Hmin].
      destruct (Nat.le_gt_cases j (g - S k)) as [L | G]; [lia |].
      exfalso. now apply (Hmin (g - S k)%nat).
    + apply lfind_None in Hl. exfalso. apply Hl. eapply nth_error_In; eauto.
  - apply rfind_None in Hr. exfalso. apply Hr. subst s.
    apply in_or_app. right. left. reflexivity.
Qed.

(** C6, as amended.  For a signature that satisfies the contract of the
    probe and has no colon after the closing bracket that follows the
    identifier, the positions of [toEnumName] are in order and inside the
    signature, [substr] does not throw and the buffer is built. *)
Theorem extraction_in_bounds (function_name : EnumDecl -> Z -> chars)
        (d : EnumDecl) (E : Z) (ident : chars) :
  fits_size_t (function_name d E) ->
  delimits_last (function_name d E) ident ->
  let m := literals function_name in
  let v := funcName function_name d E in
  positions_within function_name d E /\
  name_end m v < sv_size v /\
  (exists nameView, name_view m v = Some nameView) /\
  (exists f, toEnumName function_name d E = Some f).
Proof.
  intros F D m v. subst m v.
  destruct (delimits_last_positions _ _ D) as (k & j & Hr & Hl & Hlt).
  assert (Hs : start_position (function_name d E) = S k)
    by (unfold start_position; now rewrite Hr).
  assert (Hsize : sv_size (funcName function_name d E)
                  = Z.of_nat (length (function_name d E))).
  { unfold funcName, n. now apply funcName_size. }
  unfold positions_within. fold (funcName function_name d E).
  rewrite funcName_name_start, funcName_name_end, Hsize by exact F.
  rewrite Hs, Hl. repeat split; try lia.
  - unfold funcName, n. eexists.
    now apply name_view_eq with (s := function_name d E).
  - eexists. now apply toEnumName_name_text.
Qed.

Lemma extraction_in_bounds_witness :
  positions_within msvc_function_name Fruit 0.
Proof.
  refine (proj1 (extraction_in_bounds msvc_function_name Fruit 0 (lit "apple") _ _)).
  - unfold fits_size_t. rewrite npos_val. simpl. lia.
  - exists (lit "auto __cdecl EnumString::n<Fruit"), (lit "(void) noexcept").
    split; [reflexivity |]. unfold colon. simpl. intuition discriminate.
Defined.

(** C6, as stated, fails: this signature satisfies the contract for the
    identifier [apple], and the end position of [toEnumName] is [npos], far
    outside the signature. *)
Lemma extraction_end_outside_signature :
  let function_name := fun (_ : EnumDecl) (_ : Z) => lit "n<Fruit::apple>::x" in
  fits_size_t (function_name Fruit 0) /\
  delimits (function_name Fruit 0) (lit "apple") /\
  name_end (literals function_name) (funcName function_name Fruit 0) = npos /\
  ~ positions_within function_name Fruit 0.
Proof.
  intros function_name. split; [| split; [| split]].
  - unfold fits_size_t. rewrite npos_val. simpl. lia.
  - exists (lit "n<Fruit"), (lit "::x"). reflexivity.
  - reflexivity.
  - intros (_ & _ & H). vm_compute in H. apply H. reflexivity.
Qed.

(** ** The constraint *)

Lemma existsb_chars_eqb (name : chars) (l : list chars) :
  existsb (chars_eqb name) l = true <-> In name l.
Proof.
  rewrite existsb_exists. split.
  - intros (x & I & H). apply chars_eqb_eq in H. now subst.
  - intros I. exists name. split; [exact I | now apply chars_eqb_eq].
Qed.

Lemma SizedEnum_iff (T : type) :
  SizedEnum T = true <->
  exists d, T = EnumTy d /\ enum_scoped d = true /\ In enumSize (enum_members d).
Proof.
  unfold SizedEnum. rewrite andb_true_iff.
  destruct T as [d | l]; unfold is_scoped_enum_v, names_member.
  - rewrite existsb_chars_eqb. split.
    + intros [S I]. exists d. auto.
    + intros (d' & [= <-] & S & I). auto.
  - split; [intros [F _]; discriminate | intros (d & F & _); discriminate].
Qed.

(** C4, as amended.  The constraint holds exactly of the scoped
    enumerations that have a member named [enumSize], wherever it is
    declared; for any other type, among them an enumeration without that
    member and an unscoped enumeration, [makeEnumString] does not translate
    and gives no table. *)
Theorem SizedEnum_checks_scoped_and_sentinel_name (T : type) :
  (SizedEnum T = true <->
   exists d, T = EnumTy d /\ enum_scoped d = true /\ In enumSize (enum_members d)) /\
  (forall d, T = EnumTy d -> ~ In enumSize (enum_members d) ->
             SizedEnum T = false /\ forall st, makeEnumString T st = None) /\
  (forall d, T = EnumTy d -> enum_scoped d = false ->
             SizedEnum T = false /\ forall st, makeEnumString T st = None).
Proof.
  split; [apply SizedEnum_iff |].
  assert (G : SizedEnum T = false -> forall st, makeEnumString T st = None).
  { intros H st. unfold makeEnumString. now rewrite H. }
  split; intros d -> H.
  - assert (S : SizedEnum (EnumTy d) = false).
    { destruct (SizedEnum (EnumTy d)) eqn:S; [| reflexivity].
      apply SizedEnum_iff in S. destruct S as (d' & [= <-] & _ & I). contradiction. }
    auto.
  - assert (S : SizedEnum (EnumTy d) = false).
    { unfold SizedEnum. simpl. now rewrite H. }
    auto.
Qed.

Lemma SizedEnum_checks_scoped_and_sentinel_name_witness :
  SizedEnum (EnumTy {| enum_name := lit "Colour"; enum_scoped := false;
                       enum_members := map lit ["red"; "enumSize"]%string |}) = false.
Proof.
  refine (proj1 (proj2 (proj2 (SizedEnum_checks_scoped_and_sentinel_name _)) _ eq_refl _)).
  reflexivity.
Defined.

(** C4, as stated, fails: the constraint holds of an enumeration whose
    sentinel is not its final member. *)
Lemma SizedEnum_accepts_sentinel_first :
  SizedEnum (EnumTy sentinel_first) = true /\ ~ sentinel_final sentinel_first.
Proof.
  split; [reflexivity |]. intros (names & H).
  assert (L : last (enum_members sentinel_first) [] = last (names ++ [enumSize]) [])
    by now rewrite H.
  rewrite last_last in L. discriminate L.
Qed.

(** ** The array of names *)

Lemma sequence_map_Some {A B : Type} (f : A -> option B) (g : A -> B) (xs : list A) :
  (forall x, In x xs -> f x = Some (g x)) ->
  sequence (map f xs) = Some (map g xs).
Proof.
  induction xs as [|x r IH]; simpl; intros H; [reflexivity |].
  rewrite (H x) by auto. rewrite IH by auto. reflexivity.
Qed.

Lemma make_index_sequence_In (N I : Z) :
  In I (make_index_sequence N) -> 0 <= I < N.
Proof.
  unfold make_index_sequence. rewrite in_map_iff.
  intros (k & <- & H). apply in_seq in H. lia.
Qed.

Lemma make_index_sequence_length (N : Z) :
  length (make_index_sequence N) = Z.to_nat N.
Proof. unfold make_index_sequence. now rewrite length_map, length_seq. Qed.

Lemma make_index_sequence_nth (N : Z) (i : nat) :
  (i < Z.to_nat N)%nat ->
  nth_error (make_index_sequence N) i = Some (Z.of_nat i).
Proof.
  intros H. unfold make_index_sequence. rewrite nth_error_map.
  rewrite nth_error_seq. destruct (Nat.ltb_spec i (Z.to_nat N)); [reflexivity | lia].
Qed.

Lemma to_underlying_nonneg (d : EnumDecl) (member : chars) (N : Z) :
  to_underlying d member = Some N -> 0 <= N.
Proof.
  unfold to_underlying. destruct (index_of member (enum_members d)); simpl;
    [intros [= <-]; lia | discriminate].
Qed.

Lemma enumNames_eq (function_name : EnumDecl -> Z -> chars) (d : EnumDecl) (N : Z) :
  to_underlying d enumSize = Some N ->
  signatures_fit function_name d N ->
  enumNames function_name d
  = Some (map (enumName_view function_name d) (make_index_sequence N)).
Proof.
  intros HN F. pose proof (to_underlying_nonneg _ _ _ HN) as H0.
  unfold enumNames, generateEnumNames. rewrite HN.
  rewrite sequence_map_Some with (g := enumName_view function_name d).
  - unfold array_init. rewrite length_map, make_index_sequence_length.
    destruct (Z.leb_spec (Z.of_nat (Z.to_nat N)) N) as [_ | L]; [| lia].
    rewrite Nat.sub_diag. simpl. now rewrite app_nil_r.
  - intros I HI. apply make_index_sequence_In in HI.
    unfold enumName, static_cast_enum. rewrite toEnumName_name_text by auto.
    reflexivity.
Qed.

Lemma makeEnumString_eq (function_name : EnumDecl -> Z -> chars)
      (d : EnumDecl) (N : Z) (st : State) :
  static st = translation function_name ->
  SizedEnum (EnumTy d) = true ->
  to_underlying d enumSize = Some N ->
  signatures_fit function_name d N ->
  makeEnumString (EnumTy d) st
  = Some (map (enumName_view function_name d) (make_index_sequence N), st).
Proof.
  intros Hst S HN F. unfold makeEnumString. rewrite S, Hst. simpl.
  now rewrite (enumNames_eq _ _ _ HN F).
Qed.

(** C2.  For an enumeration that meets the constraint and whose sentinel
    has the value [N], [makeEnumString] returns a table of exactly [N]
    elements and leaves the state as it is. *)
Theorem makeEnumString_length (function_name : EnumDecl -> Z -> chars)
        (d : EnumDecl) (N : Z) (st : State) :
  static st = translation function_name ->
  SizedEnum (EnumTy d) = true ->
  to_underlying d enumSize = Some N ->
  signatures_fit function_name d N ->
  exists table,
    makeEnumString (EnumTy d) st = Some (table, st) /\
    Z.of_nat (length table) = N.
Proof.
  intros Hst S HN F. pose proof (to_underlying_nonneg _ _ _ HN) as H0.
  eexists. split; [now apply (makeEnumString_eq function_name d N) |].
  rewrite length_map, make_index_sequence_length. lia.
Qed.

(** The boundary of C2: with the sentinel alone, valued 0, the table is
    empty. *)
Lemma makeEnumString_length_witness :
  exists table,
    makeEnumString (EnumTy sentinel_alone) (start msvc_function_name)
    = Some (table, start msvc_function_name) /\
    Z.of_nat (length table) = 0.
Proof.
  apply (makeEnumString_length msvc_function_name sentinel_alone 0).
  - reflexivity.
  - reflexivity.
  - reflexivity.
  - intros E H. lia.
Defined.

(** ** The names in the table *)

Lemma identifier_char_not_delimiter (c : ascii) :
  is_nondigit c || is_digit c = true -> c <> colon /\ c <> closing.
Proof.
  intros H. split; intros ->; discriminate H.
Qed.

Lemma is_identifier_no_delimiter (s : chars) :
  is_identifier s = true -> ~ In colon s /\ ~ In closing s.
Proof.
  unfold is_identifier. destruct s as [|c r]; [discriminate |].
  rewrite andb_true_iff. intros [_ H]. rewrite forallb_forall in H.
  split; intros I; apply H in I; apply identifier_char_not_delimiter in I; tauto.
Qed.

Lemma name_text_delimited (pre ident post : chars) :
  ~ In colon ident -> ~ In closing ident -> ~ In colon post ->
  name_text (pre ++ lit "::" ++ ident ++ lit ">" ++ post) = ident.
Proof.
  intros Hc Hg Hp.
  change (lit "::") with [colon; colon]. change (lit ">") with [closing].
  assert (Hr : rfind colon (pre ++ [colon; colon] ++ ident ++ [closing] ++ post)
               = Some (S (length pre))).
  { replace (pre ++ [colon; colon] ++ ident ++ [closing] ++ post)
      with ((pre ++ [colon]) ++ colon :: (ident ++ [closing] ++ post))
      by (rewrite <- app_assoc; reflexivity).
    rewrite rfind_app.
    - rewrite length_app. simpl. f_equal. lia.
    - intros I. apply in_app_or in I. destruct I as [I | I]; [auto |].
      simpl in I. destruct I as [I | I]; [discriminate I | auto]. }
  unfold name_text, start_position. rewrite Hr.
  replace (skipn (S (S (length pre))) (pre ++ [colon; colon] ++ ident ++ [closing] ++ post))
    with (ident ++ closing :: post).
  - rewrite lfind_app by exact Hg. rewrite firstn_app, Nat.sub_diag, firstn_all.
    simpl. apply app_nil_r.
  - replace (pre ++ [colon; colon] ++ ident ++ [closing] ++ post)
      with ((pre ++ [colon; colon]) ++ ident ++ closing :: post)
      by (rewrite <- app_assoc; reflexivity).
    replace (S (S (length pre))) with (length (pre ++ [colon; colon]))
      by (rewrite length_app; simpl; lia).
    rewrite skipn_app, skipn_all, Nat.sub_diag. reflexivity.
Qed.

Lemma index_of_sentinel (name : chars) (names rest : list chars) :
  ~ In name names -> index_of name (names ++ name :: rest) = Some (length names).
Proof.
  induction names as [|x r IH]; simpl; intros H.
  - assert (E : chars_eqb name name = true) by now apply chars_eqb_eq.
    now rewrite E.
  - destruct (chars_eqb x name) eqn:E.
    + apply chars_eqb_eq in E. exfalso. auto.
    + rewrite IH by auto. reflexivity.
Qed.

Lemma sized_enum_eligible (d : EnumDecl) (names rest : list chars) :
  sized_enum d names rest ->
  SizedEnum (EnumTy d) = true /\
  to_underlying d enumSize = Some (Z.of_nat (length names)).
Proof.
  intros (S & M & I & _). split.
  - apply SizedEnum_iff. exists d. repeat split; [exact S |].
    rewrite M. apply in_or_app. right. left. reflexivity.
  - unfold to_underlying. rewrite M, index_of_sentinel by exact I. reflexivity.
Qed.

Lemma enumName_view_chars (function_name : EnumDecl -> Z -> chars)
      (d : EnumDecl) (E : Z) :
  fits_size_t (function_name d E) ->
  sv_chars (image function_name) (enumName_view function_name d E)
  = name_text (function_name d E).
Proof.
  intros F. unfold sv_chars, enumName_view, image, enumName. simpl.
  rewrite toEnumName_name_text by exact F. simpl.
  rewrite Nat2Z.id. apply firstn_all.
Qed.

Lemma msvc_probe_contract (d : EnumDecl) (names rest : list chars) :
  enum_members d = names ++ rest ->
  probe_contract msvc_function_name d names.
Proof.
  intros M i ident Hi.
  exists (lit "auto __cdecl EnumString::n<" ++ enum_name d), (lit "(void) noexcept").
  split.
  - unfold msvc_function_name, template_argument.
    destruct (Z.leb_spec 0 (Z.of_nat i)) as [_ | L]; [| lia].
    rewrite Nat2Z.id, M, nth_error_app1, Hi
      by (apply nth_error_Some; congruence).
    change (lit ">(void) noexcept") with (lit ">" ++ lit "(void) noexcept").
    now rewrite <- !app_assoc.
  - unfold colon. simpl. intuition discriminate.
Qed.

Lemma table_chars (function_name : EnumDecl -> Z -> chars)
      (d : EnumDecl) (names rest : list chars) (st : State) :
  static st = translation function_name ->
  sized_enum d names rest ->
  signatures_fit function_name d (Z.of_nat (length names)) ->
  probe_contract function_name d names ->
  forall i ident,
    nth_error names i = Some ident ->
    nth_error (map (enumName_view function_name d)
                   (make_index_sequence (Z.of_nat (length names)))) i
    = Some (enumName_view function_name d (Z.of_nat i)) /\
    sv_chars (static_chars (static st))
             (enumName_view function_name d (Z.of_nat i)) = ident.
Proof.
  intros Hst (_ & _ & _ & Hid) F P i ident Hi. rewrite Forall_forall in Hid.
  assert (Hlt : (i < length names)%nat) by (apply nth_error_Some; congruence).
  split.
  - rewrite nth_error_map, make_index_sequence_nth; [reflexivity |].
    now rewrite Nat2Z.id.
  - rewrite Hst. simpl. rewrite enumName_view_chars by (apply F; lia).
    destruct (P i ident Hi) as (pre & post & -> & Hpost).
    destruct (is_identifier_no_delimiter ident) as [Hc Hg].
    + apply Hid. eapply nth_error_In; eauto.
    + now apply name_text_delimited.
Qed.

Lemma table_names (function_name : EnumDecl -> Z -> chars)
      (d : EnumDecl) (names rest : list chars) (st : State) :
  static st = translation function_name ->
  sized_enum d names rest ->
  signatures_fit function_name d (Z.of_nat (length names)) ->
  probe_contract function_name d names ->
  map (sv_chars (static_chars (static st)))
      (map (enumName_view function_name d)
           (make_index_sequence (Z.of_nat (length names)))) = names.
Proof.
  intros Hst C F P. apply nth_error_ext. intros i. rewrite nth_error_map.
  destruct (nth_error names i) as [ident|] eqn:Hi.
  - destruct (table_chars _ _ _ _ _ Hst C F P i ident Hi) as [Hn Hc].
    rewrite Hn. cbn [option_map]. now rewrite Hc.
  - apply nth_error_None in Hi.
    replace (nth_error _ i) with (@None string_view); [reflexivity |].
    symmetry. apply nth_error_None.
    rewrite length_map, make_index_sequence_length. lia.
Qed.

(** C1.  For a scoped enumeration whose sentinel [enumSize] has the value
    [N] and whose [N] members before it are [names], on a toolchain whose
    signatures meet the contract of the probe, [makeEnumString] returns a
    table whose element [i] spans exactly the identifier of the member
    valued [i]: the bare identifier, in the order of the member values. *)
Theorem makeEnumString_names (function_name : EnumDecl -> Z -> chars)
        (d : EnumDecl) (names rest : list chars) (st : State) :
  static st = translation function_name ->
  sized_enum d names rest ->
  signatures_fit function_name d (Z.of_nat (length names)) ->
  probe_contract function_name d names ->
  exists table,
    makeEnumString (EnumTy d) st = Some (table, st) /\
    map (sv_chars (static_chars (static st))) table = names /\
    forall i ident,
      nth_error names i = Some ident ->
      exists v, nth_error table i = Some v /\
                sv_chars (static_chars (static st)) v = ident /\
                is_identifier ident = true.
Proof.
  intros Hst C F P. destruct (sized_enum_eligible _ _ _ C) as [S HN].
  eexists. split; [now apply (makeEnumString_eq function_name d _ st Hst S HN F) |].
  split; [now apply table_names with (rest := rest) |].
  intros i ident Hi.
  destruct (table_chars _ _ _ _ _ Hst C F P i ident Hi) as [Hn Hc].
  eexists. split; [exact Hn |]. split; [exact Hc |].
  destruct C as (_ & _ & _ & Hid). rewrite Forall_forall in Hid.
  apply Hid. eapply nth_error_In; eauto.
Qed.

Lemma Fruit_sized : sized_enum Fruit fruit_names [].
Proof.
  split; [reflexivity |]. split; [reflexivity |]. split.
  - unfold fruit_names, enumSize. simpl. intuition discriminate.
  - unfold fruit_names. simpl. repeat constructor.
Qed.

Lemma Fruit_signatures_fit : signatures_fit msvc_function_name Fruit 15.
Proof.
  intros E H. unfold fits_size_t. rewrite npos_val.
  assert (C : E = 0 \/ E = 1 \/ E = 2 \/ E = 3 \/ E = 4 \/ E = 5 \/ E = 6 \/ E = 7 \/
              E = 8 \/ E = 9 \/ E = 10 \/ E = 11 \/ E = 12 \/ E = 13 \/ E = 14) by lia.
  repeat (destruct C as [-> | C]; [vm_compute; discriminate |]).
  subst E. vm_compute. discriminate.
Qed.

Lemma makeEnumString_names_witness :
  exists table,
    makeEnumString (EnumTy Fruit) (start msvc_function_name)
    = Some (table, start msvc_function_name) /\
    map (sv_chars (image msvc_function_name)) table = fruit_names.
Proof.
  destruct (makeEnumString_names msvc_function_name Fruit fruit_names []
              (start msvc_function_name))
    as (table & H1 & H2 & _).
  - reflexivity.
  - exact Fruit_sized.
  - exact Fruit_signatures_fit.
  - now apply msvc_probe_contract with (rest := [enumSize]).
  - exists table. split; [exact H1 | exact H2].
Defined.

(** ** The demonstration program *)

Lemma for_each_listing (xs : list string_view) (k : nat) (st : State) :
  for_each (combine (map Z.of_nat (seq k (length xs))) xs)
           (fun '(index, name) => println_index_name index name) st
  = Some (tt, {| static := static st;
                 automatic := automatic st;
                 stdout := stdout st
                           ++ listing k (map (sv_chars (static_chars (static st))) xs) |}).
Proof.
  revert k st. induction xs as [|x r IH]; intros k st.
  - simpl. unfold ret. rewrite app_nil_r. now destruct st.
  - simpl. unfold bind, println_index_name, println, print. rewrite IH. simpl.
    do 3 f_equal. rewrite <- !app_assoc. reflexivity.
Qed.

Lemma main_run (st : State) (table : EnumStringArray) :
  makeEnumString (EnumTy Fruit) st = Some (table, st) ->
  main st
  = Some (0, {| static := static st;
                automatic := automatic st ++ [table];
                stdout := stdout st ++ lit "List of fruits:" ++ newline ++ newline
                          ++ listing 0 (map (sv_chars (static_chars (static st))) table) |}).
Proof.
  intros H. unfold main, bind. rewrite H.
  unfold declare, println, print, read. cbn [automatic static stdout].
  rewrite nth_error_app2, Nat.sub_diag by lia. cbn [nth_error].
  unfold enumerate. rewrite for_each_listing. unfold ret. cbn [automatic static stdout].
  do 3 f_equal. rewrite <- !app_assoc. reflexivity.
Qed.

Lemma main_writes_main_output (function_name : EnumDecl -> Z -> chars) :
  signatures_fit function_name Fruit 15 ->
  probe_contract function_name Fruit fruit_names ->
  exists st', main (start function_name) = Some (0, st') /\
              stdout st' = main_output.
Proof.
  intros F P.
  pose proof Fruit_sized as C.
  destruct (sized_enum_eligible _ _ _ C) as [S HN].
  pose proof (makeEnumString_eq function_name Fruit _ (start function_name)
                                eq_refl S HN F) as Hm.
  pose proof (table_names function_name Fruit fruit_names [] (start function_name)
                          eq_refl C F P) as Hn.
  cbn [start static translation static_chars] in Hn.
  eexists. split; [exact (main_run _ _ Hm) |].
  cbn [stdout start static translation static_chars]. rewrite Hn. reflexivity.
Qed.

Lemma main_output_has_empty_line : main_output <> header_then_fruits.
Proof.
  intros H. apply chars_eqb_eq in H. vm_compute in H. discriminate H.
Qed.

(** C8, as amended.  For the fruit enumeration the table has 15 elements,
    the first one [apple] and the last one [strawberry], and [main] writes
    the header line, one empty line, and then the 15 lines of an index
    right-aligned in two characters, a colon, a space and the name, in the
    order of the indices; its exit status is 0. *)
Theorem main_prints_fruits (function_name : EnumDecl -> Z -> chars) :
  signatures_fit function_name Fruit 15 ->
  probe_contract function_name Fruit fruit_names ->
  exists table st',
    makeEnumString (EnumTy Fruit) (start function_name)
    = Some (table, start function_name) /\
    length table = 15%nat /\
    option_map (sv_chars (image function_name)) (nth_error table 0)
    = Some (lit "apple") /\
    option_map (sv_chars (image function_name)) (nth_error table 14)
    = Some (lit "strawberry") /\
    main (start function_name) = Some (0, st') /\
    stdout st' = main_output.
Proof.
  intros F P.
  pose proof Fruit_sized as C.
  destruct (sized_enum_eligible _ _ _ C) as [S HN].
  pose proof (makeEnumString_eq function_name Fruit _ (start function_name)
                                eq_refl S HN F) as Hm.
  pose proof (table_names function_name Fruit fruit_names [] (start function_name)
                          eq_refl C F P) as Hn.
  cbn [start static translation static_chars] in Hn.
  eexists. eexists. split; [exact Hm |].
  split; [rewrite length_map, make_index_sequence_length; reflexivity |].
  split; [rewrite <- nth_error_map, Hn; reflexivity |].
  split; [rewrite <- nth_error_map, Hn; reflexivity |].
  split; [exact (main_run _ _ Hm) |].
  cbn [stdout start static translation static_chars]. rewrite Hn. reflexivity.
Qed.

Lemma main_prints_fruits_witness :
  exists st', main (start msvc_function_name) = Some (0, st') /\
              stdout st' = main_output.
Proof.
  destruct (main_prints_fruits msvc_function_name) as (table & st' & _ & _ & _ & _ & H1 & H2).
  - exact Fruit_signatures_fit.
  - now apply msvc_probe_contract with (rest := [enumSize]).
  - exists st'. split; [exact H1 | exact H2].
Defined.

(** C8, as stated, fails: what [main] writes is not the header immediately
    followed by the 15 lines; the line after the header is empty. *)
Lemma main_prints_empty_line_after_header :
  exists st', main (start msvc_function_name) = Some (0, st') /\
              stdout st' = main_output /\
              stdout st' <> header_then_fruits.
Proof.
  destruct (main_writes_main_output msvc_function_name) as (st' & H1 & H2).
  - exact Fruit_signatures_fit.
  - now apply msvc_probe_contract with (rest := [enumSize]).
  - exists st'. split; [exact H1 |]. split; [exact H2 |].
    rewrite H2. exact main_output_has_empty_line.
Qed.

(** ** Storage *)

Lemma views_of_enumName_table (function_name : EnumDecl -> Z -> chars)
      (d : EnumDecl) (N : Z) :
  signatures_fit function_name d N ->
  views_of_enumName function_name d N (image function_name)
                    (map (enumName_view function_name d) (make_index_sequence N)).
Proof.
  intros F i Hi.
  assert (Hf : fits_size_t (function_name d (Z.of_nat i))) by (apply F; lia).
  eexists. split; [unfold enumName; now apply toEnumName_name_text |].
  split.
  - rewrite nth_error_map, make_index_sequence_nth by exact Hi. reflexivity.
  - unfold stored_at, image, enumName. now rewrite toEnumName_name_text.
Qed.

Lemma update_Some {A : Type} (l : list A) (i : nat) (v : A) :
  (i < length l)%nat -> exists l', update l i v = Some l'.
Proof.
  revert i. induction l as [|x r IH]; simpl; intros i H; [lia |].
  destruct i as [|i]; [eexists; reflexivity |].
  destruct (IH i) as (l' & ->); [lia |]. eexists. reflexivity.
Qed.

Lemma update_middle {A : Type} (l r : list A) (a a' : A) :
  update (l ++ a :: r) (length l) a' = Some (l ++ a' :: r).
Proof.
  induction l as [|x l IH]; simpl; [reflexivity |]. now rewrite IH.
Qed.

Lemma nth_error_middle {A : Type} (l r : list A) (a : A) :
  nth_error (l ++ a :: r) (length l) = Some a.
Proof. rewrite nth_error_app2, Nat.sub_diag by lia. reflexivity. Qed.

(** C5.  Two calls of [makeEnumString] for the same enumeration return the
    same table and leave the state as it is.  The table is the constant
    [enumNames<EnumT>] kept in static storage, which neither call computes
    anew, and each of its elements is the view of the one buffer
    [enumName<EnumT, E>] of its index, so that the two tables point to the
    same storage. *)
Theorem makeEnumString_idempotent (function_name : EnumDecl -> Z -> chars)
        (d : EnumDecl) (N : Z) (st : State) :
  static st = translation function_name ->
  SizedEnum (EnumTy d) = true ->
  to_underlying d enumSize = Some N ->
  signatures_fit function_name d N ->
  exists table,
    two_calls (EnumTy d) st = Some ((table, table), st) /\
    static_enumNames (static st) d = Some table /\
    views_of_enumName function_name d N (static_chars (static st)) table.
Proof.
  intros Hst S HN F.
  pose proof (makeEnumString_eq function_name d N st Hst S HN F) as Hm.
  eexists. split; [| split].
  - unfold two_calls, bind, ret. rewrite Hm, Hm. reflexivity.
  - rewrite Hst. simpl. now apply enumNames_eq.
  - rewrite Hst. simpl. now apply views_of_enumName_table.
Qed.

Lemma makeEnumString_idempotent_witness :
  exists table,
    two_calls (EnumTy Fruit) (start msvc_function_name)
    = Some ((table, table), start msvc_function_name).
Proof.
  destruct (makeEnumString_idempotent msvc_function_name Fruit 15
              (start msvc_function_name)) as (table & H & _).
  - reflexivity.
  - reflexivity.
  - reflexivity.
  - exact Fruit_signatures_fit.
  - exists table. exact H.
Defined.

Lemma nth_error_after_middle {A : Type} (l r : list A) (a b c : A) :
  nth_error (l ++ a :: b :: r) (length (l ++ [c])) = Some b.
Proof.
  rewrite length_app, nth_error_app2 by lia.
  replace (length l + length [c] - length l)%nat with 1%nat by (simpl; lia).
  reflexivity.
Qed.

(** C10.  Each element of a table [makeEnumString] returns is the view of
    the buffer [enumName<EnumT, E>] of its index, held in static storage.
    A table declared from a call is a new array object: two of them are
    different objects with the same elements, an assignment to an element
    of the first one changes neither the second one, nor static storage,
    nor the table a later call returns. *)
Theorem makeEnumString_views_shared_array_copied
        (function_name : EnumDecl -> Z -> chars)
        (d : EnumDecl) (N : Z) (st : State) (i : nat) (v : string_view) :
  static st = translation function_name ->
  SizedEnum (EnumTy d) = true ->
  to_underlying d enumSize = Some N ->
  signatures_fit function_name d N ->
  (i < Z.to_nat N)%nat ->
  exists table x y updated st',
    two_copies (EnumTy d) i v st = Some ((x, y, updated, table, table), st') /\
    x = length (automatic st) /\ y = S x /\ x <> y /\
    update table i v = Some updated /\
    static st' = static st /\
    makeEnumString (EnumTy d) st = Some (table, st) /\
    views_of_enumName function_name d N (static_chars (static st')) table.
Proof.
  intros Hst HS HN F Hi.
  set (table := map (enumName_view function_name d) (make_index_sequence N)).
  assert (Hm : forall s, static s = translation function_name ->
                         makeEnumString (EnumTy d) s = Some (table, s)).
  { intros s Hs. now apply (makeEnumString_eq function_name d N). }
  destruct (update_Some table i v) as (updated & Hu).
  { unfold table. rewrite length_map, make_index_sequence_length. exact Hi. }
  exists table, (length (automatic st)), (S (length (automatic st))), updated.
  exists {| static := static st;
            automatic := automatic st ++ [updated; table];
            stdout := stdout st |}.
  split; [| split; [reflexivity | split; [reflexivity | split; [lia |
            split; [exact Hu | split; [reflexivity | split; [exact (Hm st Hst) |]]]]]]].
  - unfold two_copies, bind. rewrite (Hm st Hst).
    unfold declare at 1. cbn [automatic static stdout].
    rewrite Hm by exact Hst.
    unfold declare. cbn [automatic static stdout].
    unfold assign. cbn [automatic static stdout].
    rewrite <- app_assoc. cbn [app]. unfold EnumStringArray in *.
    rewrite nth_error_middle, Hu, update_middle.
    unfold read. cbn [automatic static stdout].
    rewrite nth_error_middle. cbn [automatic static stdout].
    rewrite nth_error_after_middle.
    rewrite Hm by exact Hst. unfold ret.
    rewrite length_app, Nat.add_1_r. reflexivity.
  - cbn [static]. rewrite Hst. simpl. now apply views_of_enumName_table.
Qed.

Lemma makeEnumString_views_shared_array_copied_witness :
  exists table x y updated st',
    two_copies (EnumTy Fruit) 0 empty_view (start msvc_function_name)
    = Some ((x, y, updated, table, table), st') /\
    x <> y /\
    static st' = translation msvc_function_name.
Proof.
  destruct (makeEnumString_views_shared_array_copied msvc_function_name Fruit 15
              (start msvc_function_name) 0 empty_view)
    as (table & x & y & updated & st' & H1 & _ & _ & H2 & _ & H3 & _).
  - reflexivity.
  - reflexivity.
  - reflexivity.
  - exact Fruit_signatures_fit.
  - simpl. lia.
  - exists table, x, y, updated, st'. split; [exact H1 |]. split; [exact H2 |].
    exact H3.
Defined.

(** * Further properties of the header *)

(** ** The shape of the extracted name *)

Lemma rfind_split (c : ascii) (s : chars) (k : nat) :
  rfind c s = Some k ->
  exists l1 l2, s = l1 ++ c :: l2 /\ length l1 = k /\ ~ In c l2.
Proof.
  revert k. induction s as [|x r IH]; simpl; intros k H; [discriminate |].
  destruct (rfind c r) as [k'|] eqn:Hr.
  - injection H as <-. destruct (IH k' eq_refl) as (l1 & l2 & -> & <- & Hn).
    exists (x :: l1), l2. auto.
  - destruct (Ascii.eqb x c) eqn:Hx; [| discriminate].
    injection H as <-. apply ascii_eqb_true in Hx. subst x.
    exists [], r. repeat split. now apply rfind_None.
Qed.

Lemma lfind_split (c : ascii) (s : chars) (k : nat) :
  lfind c s = Some k ->
  exists l1 l2, s = l1 ++ c :: l2 /\ length l1 = k /\ ~ In c l1.
Proof.
  revert k. induction s as [|x r IH]; simpl; intros k H; [discriminate |].
  destruct (Ascii.eqb x c) eqn:Hx.
  - injection H as <-. apply ascii_eqb_true in Hx. subst x.
    exists [], r. repeat split. intros [].
  - apply Ascii.eqb_neq in Hx. destruct (lfind c r) as [k'|]; [| discriminate].
    injection H as <-. destruct (IH k' eq_refl) as (l1 & l2 & -> & <- & Hn).
    exists (x :: l1), l2. repeat split. intros [E | I]; auto.
Qed.

Lemma skipn_length_app {A : Type} (l1 l2 : list A) :
  skipn (length l1) (l1 ++ l2) = l2.
Proof. rewrite skipn_app, skipn_all, Nat.sub_diag. reflexivity. Qed.

Lemma firstn_length_app {A : Type} (l1 l2 : list A) :
  firstn (length l1) (l1 ++ l2) = l1.
Proof. rewrite firstn_app, firstn_all, Nat.sub_diag. simpl. apply app_nil_r. Qed.

(** The signature splits around the name: what is before it is empty (and
    then the signature has no colon) or ends with a colon, what is after it
    is empty or starts with the closing bracket; no colon from the name on,
    no closing bracket in the name. *)
Lemma name_text_shape (s : chars) :
  exists before after,
    s = before ++ name_text s ++ after /\
    ((before = [] /\ ~ In colon s) \/ exists b, before = b ++ [colon]) /\
    (after = [] \/ exists a, after = closing :: a) /\
    ~ In colon (name_text s ++ after) /\
    ~ In closing (name_text s).
Proof.
  assert (R : exists before rest,
             s = before ++ rest /\ skipn (start_position s) s = rest /\
             ((before = [] /\ ~ In colon s) \/ exists b, before = b ++ [colon]) /\
             ~ In colon rest).
  { unfold start_position. destruct (rfind colon s) as [k|] eqn:Hr.
    - destruct (rfind_split _ _ _ Hr) as (l1 & l2 & -> & <- & Hn).
      exists (l1 ++ [colon]), l2. split; [now rewrite <- app_assoc |]. split.
      + replace (l1 ++ colon :: l2) with ((l1 ++ [colon]) ++ l2)
          by now rewrite <- app_assoc.
        replace (S (length l1)) with (length (l1 ++ [colon]))
          by (rewrite length_app; simpl; lia).
        apply skipn_length_app.
      + split; [right; eauto | exact Hn].
    - apply rfind_None in Hr. exists [], s.
      split; [reflexivity |]. split; [reflexivity |].
      split; [left; split; [reflexivity | exact Hr] | exact Hr]. }
  destruct R as (before & rest & Hs & Hrest & Hb & Hc).
  unfold name_text. rewrite Hrest.
  destruct (lfind closing rest) as [j|] eqn:Hl.
  - destruct (lfind_split _ _ _ Hl) as (l1 & l2 & -> & <- & Hn).
    rewrite firstn_length_app. exists before, (closing :: l2).
    split; [exact Hs |]. split; [exact Hb |]. split; [right; eauto |].
    split; [exact Hc | exact Hn].
  - apply lfind_None in Hl. exists before, [].
    rewrite app_nil_r. split; [exact Hs |]. split; [exact Hb |].
    split; [left; reflexivity |]. split; [exact Hc | exact Hl].
Qed.

(** X1.  Whatever the signature, the name [toEnumName] extracts contains
    neither a colon nor a closing bracket. *)
Theorem toEnumName_without_delimiters (function_name : EnumDecl -> Z -> chars)
        (d : EnumDecl) (E : Z) (f : FixedString) :
  fits_size_t (function_name d E) ->
  toEnumName function_name d E = Some f ->
  ~ In colon (data_ f) /\ ~ In closing (data_ f).
Proof.
  intros F H. rewrite toEnumName_name_text in H by exact F.
  injection H as <-. simpl.
  destruct (name_text_shape (function_name d E))
    as (before & after & _ & _ & _ & Hc & Hg).
  split; [| exact Hg]. intros I. apply Hc. apply in_or_app. now left.
Qed.

Lemma toEnumName_without_delimiters_witness :
  ~ In colon (lit "x") /\ ~ In closing (lit "x").
Proof.
  apply (toEnumName_without_delimiters
           (fun _ _ => lit "n<Fruit::apple>::x") Fruit 0
           {| Size := 1; data_ := lit "x" |}).
  - unfold fits_size_t. rewrite npos_val. simpl. lia.
  - reflexivity.
Defined.

(** X2.  The buffer [toEnumName] builds is a contiguous part of the
    signature, of exactly the buffer's size: the signature is what comes
    before it, the name, and what comes after it, where the part before is
    empty or ends with a colon and the part after is empty or starts with
    the closing bracket. *)
Theorem toEnumName_part_of_signature (function_name : EnumDecl -> Z -> chars)
        (d : EnumDecl) (E : Z) (f : FixedString) :
  fits_size_t (function_name d E) ->
  toEnumName function_name d E = Some f ->
  Size f = Z.of_nat (length (data_ f)) /\
  exists before after,
    function_name d E = before ++ data_ f ++ after /\
    (before = [] \/ exists b, before = b ++ [colon]) /\
    (after = [] \/ exists a, after = closing :: a).
Proof.
  intros F H. rewrite toEnumName_name_text in H by exact F.
  injection H as <-. simpl. split; [reflexivity |].
  destruct (name_text_shape (function_name d E))
    as (before & after & Hs & Hb & Ha & _).
  exists before, after. split; [exact Hs |]. split; [| exact Ha].
  destruct Hb as [[Hb _] | Hb]; auto.
Qed.

Lemma toEnumName_part_of_signature_witness :
  exists before after,
    msvc_function_name Fruit 0 = before ++ lit "apple" ++ after.
Proof.
  destruct (toEnumName_part_of_signature msvc_function_name Fruit 0
              {| Size := 5; data_ := lit "apple" |})
    as (_ & before & after & H & _).
  - unfold fits_size_t. rewrite npos_val. simpl. lia.
  - reflexivity.
  - exists before, after. exact H.
Defined.

(** ** The arithmetic on the positions *)

(** X3.  Whatever the signature, the start position of [toEnumName] is at
    most the size of the signature and at most the end position, which is
    inside the signature or [npos]; so the unsigned subtraction
    [end - start] never wraps around. *)
Theorem extraction_never_underflows (function_name : EnumDecl -> Z -> chars)
        (d : EnumDecl) (E : Z) :
  fits_size_t (function_name d E) ->
  let m := literals function_name in
  let v := funcName function_name d E in
  0 <= name_start m v <= sv_size v /\
  name_start m v <= name_end m v /\
  (name_end m v < sv_size v \/ name_end m v = npos) /\
  size_t.wrap (name_end m v - name_start m v) = name_end m v - name_start m v.
Proof.
  intros F m v. subst m v.
  assert (Hsize : sv_size (funcName function_name d E)
                  = Z.of_nat (length (function_name d E))).
  { unfold funcName, n. now apply funcName_size. }
  rewrite funcName_name_start, funcName_name_end, Hsize by exact F.
  pose proof (start_position_le (function_name d E)) as Hs.
  unfold fits_size_t in F.
  destruct (lfind closing (skipn (start_position (function_name d E))
                                 (function_name d E))) as [k|] eqn:Hl.
  - apply lfind_lt in Hl. rewrite length_skipn in Hl.
    repeat split; try lia. rewrite wrap_small; lia.
  - repeat split; try lia. rewrite wrap_small; lia.
Qed.

Lemma extraction_never_underflows_witness :
  let function_name := fun (_ : EnumDecl) (_ : Z) => lit ">:" in
  size_t.wrap (name_end (literals function_name) (funcName function_name Fruit 0)
               - name_start (literals function_name) (funcName function_name Fruit 0))
  = npos - 2.
Proof.
  intros function_name.
  assert (F : fits_size_t (function_name Fruit 0))
    by (unfold fits_size_t; rewrite npos_val; simpl; lia).
  rewrite (proj2 (proj2 (proj2
            (extraction_never_underflows function_name Fruit 0 F)))).
  reflexivity.
Defined.

(** ** What the extraction depends on *)

Lemma name_text_after_last_colon (pre rest : chars) :
  ~ In colon rest ->
  name_text (pre ++ colon :: rest)
  = match lfind closing rest with
    | Some k => firstn k rest
    | None => rest
    end.
Proof.
  intros H. unfold name_text, start_position. rewrite rfind_app by exact H.
  replace (pre ++ colon :: rest) with ((pre ++ [colon]) ++ rest)
    by now rewrite <- app_assoc.
  replace (S (length pre)) with (length (pre ++ [colon]))
    by (rewrite length_app; simpl; lia).
  now rewrite skipn_length_app.
Qed.

Lemma name_text_without_colon (rest : chars) :
  ~ In colon rest ->
  name_text rest
  = match lfind closing rest with
    | Some k => firstn k rest
    | None => rest
    end.
Proof.
  intros H. unfold name_text, start_position.
  apply rfind_None in H. rewrite H. reflexivity.
Qed.

Lemma name_text_le (s : chars) : (length (name_text s) <= length s)%nat.
Proof. pose proof (name_text_length s). lia. Qed.



(** X5.  Extracting from an extracted name changes nothing: when the
    signature of one instantiation is the name extracted from another one,
    [toEnumName] gives the same buffer for both. *)
Theorem toEnumName_of_name (function_name : EnumDecl -> Z -> chars)
        (d d' : EnumDecl) (E E' : Z) (f : FixedString) :
  fits_size_t (function_name d E) ->
  toEnumName function_name d E = Some f ->
  function_name d' E' = data_ f ->
  toEnumName function_name d' E' = Some f.
Proof.
  intros F H Hs. rewrite toEnumName_name_text in H by exact F.
  injection H as <-. simpl in Hs.
  destruct (name_text_shape (function_name d E))
    as (before & after & _ & _ & _ & Hc & Hg).
  assert (Hc' : ~ In colon (name_text (function_name d E)))
    by (intros I; apply Hc; apply in_or_app; now left).
  rewrite toEnumName_name_text.
  - rewrite Hs, name_text_without_colon by exact Hc'.
    apply lfind_None in Hg. now rewrite Hg.
  - rewrite Hs. unfold fits_size_t in *.
    pose proof (name_text_le (function_name d E)). lia.
Qed.

Lemma toEnumName_of_name_witness :
  toEnumName (fun _ E => if E =? 0 then lit "n<Fruit::apple>" else lit "apple") Fruit 1
  = Some {| Size := 5; data_ := lit "apple" |}.
Proof.
  apply (toEnumName_of_name
           (fun _ E => if E =? 0 then lit "n<Fruit::apple>" else lit "apple")
           Fruit Fruit 0 1).
  - unfold fits_size_t. rewrite npos_val. simpl. lia.
  - reflexivity.
  - reflexivity.
Defined.

(** X6.  The extraction ignores everything up to the last colon of the
    signature: the signature and what follows its last colon give the same
    buffer. *)
Theorem toEnumName_ignores_qualification (function_name : EnumDecl -> Z -> chars)
        (d d' : EnumDecl) (E E' : Z) (pre rest : chars) :
  function_name d E = pre ++ colon :: rest ->
  ~ In colon rest ->
  function_name d' E' = rest ->
  fits_size_t (function_name d E) ->
  toEnumName function_name d E = toEnumName function_name d' E'.
Proof.
  intros Hs Hc Hs' F.
  assert (F' : fits_size_t (function_name d' E')).
  { unfold fits_size_t in *. rewrite Hs'. rewrite Hs, length_app in F.
    simpl in F. lia. }
  rewrite !toEnumName_name_text by assumption. rewrite Hs, Hs'.
  now rewrite name_text_after_last_colon, name_text_without_colon.
Qed.

Lemma toEnumName_ignores_qualification_witness :
  toEnumName (fun _ E => if E =? 0 then lit "ns::Fruit::apple>()" else lit "apple>()")
             Fruit 0
  = toEnumName (fun _ E => if E =? 0 then lit "ns::Fruit::apple>()" else lit "apple>()")
               Fruit 1.
Proof.
  apply (toEnumName_ignores_qualification
           (fun _ E => if E =? 0 then lit "ns::Fruit::apple>()" else lit "apple>()")
           Fruit Fruit 0 1 (lit "ns::Fruit:") (lit "apple>()")).
  - reflexivity.
  - unfold colon. simpl. intuition discriminate.
  - reflexivity.
  - unfold fits_size_t. rewrite npos_val. simpl. lia.
Defined.

(** ** FixedString and the views it is built from *)

Lemma FixedString_ctor_Some (m : Memory) (L : Z) (str : char_ptr) (f : FixedString) :
  FixedString_ctor m L str = Some f ->
  readable m str L /\ f = {| Size := L; data_ := source_chars m str L |}.
Proof.
  unfold FixedString_ctor, copy_n, readable.
  destruct (Z.leb_spec 0 (p_off str)); simpl; [| discriminate].
  destruct (Z.leb_spec 0 L); simpl; [| discriminate].
  destruct (Z.leb_spec (p_off str + L) (Z.of_nat (length (m (p_obj str)))));
    simpl; [| discriminate].
  intros [= <-]. auto.
Qed.

(** X7.  A buffer built by the constructor and read back through its own
    view is rebuilt unchanged: constructing a [FixedString] of the view's
    size from the view's data pointer gives the same buffer. *)
Theorem FixedString_of_its_view (m0 m : Memory) (L : Z) (str : char_ptr)
        (f : FixedString) (self : object) :
  FixedString_ctor m0 L str = Some f ->
  stored_at m self f ->
  FixedString_ctor m (sv_size (FixedString_view self f))
                   (sv_data (FixedString_view self f)) = Some f.
Proof.
  intros H S. destruct (FixedString_ctor_Some _ _ _ _ H) as [R ->].
  pose proof (source_chars_length _ _ _ R) as Hl.
  unfold stored_at in S. simpl in S. unfold FixedString_view. simpl.
  rewrite FixedString_ctor_readable.
  - do 2 f_equal. unfold source_chars. simpl. rewrite S.
    rewrite <- Hl at 1. rewrite Nat2Z.id. apply firstn_all.
  - unfold readable. simpl. rewrite S. lia.
Qed.

Lemma FixedString_of_its_view_witness :
  let m := literals (fun _ _ => []) in
  let f := {| Size := 4; data_ := lit "test" |} in
  FixedString_ctor (with_temporary m 0 f) 4 {| p_obj := temporary_obj 0; p_off := 0 |}
  = Some f.
Proof.
  intros m f.
  apply (FixedString_of_its_view m (with_temporary m 0 f) 4
           {| p_obj := literal_obj (lit "retested"); p_off := 2 |} f (temporary_obj 0)).
  - reflexivity.
  - reflexivity.
Defined.



(** ** The table and the declaration of the enumeration *)

(** X9.  When the sentinel is the first member declared, its value is 0 and
    the table is empty, whatever the other members are and whatever the
    toolchain's signatures: none is asked for. *)
Theorem sentinel_first_gives_empty_table (function_name : EnumDecl -> Z -> chars)
        (d : EnumDecl) (rest : list chars) (st : State) :
  static st = translation function_name ->
  enum_scoped d = true ->
  enum_members d = enumSize :: rest ->
  makeEnumString (EnumTy d) st = Some ([], st).
Proof.
  intros Hst Hs Hm.
  assert (HN : to_underlying d enumSize = Some 0).
  { unfold to_underlying. rewrite Hm.
    change (enumSize :: rest) with ([] ++ enumSize :: rest).
    now rewrite index_of_sentinel by (intros []). }
  assert (S : SizedEnum (EnumTy d) = true).
  { apply SizedEnum_iff. exists d. repeat split; [exact Hs |].
    rewrite Hm. now left. }
  rewrite (makeEnumString_eq function_name d 0 st Hst S HN); [reflexivity |].
  intros E H. lia.
Qed.

Lemma sentinel_first_gives_empty_table_witness :
  makeEnumString (EnumTy sentinel_first) (start msvc_function_name)
  = Some ([], start msvc_function_name).
Proof.
  apply (sentinel_first_gives_empty_table msvc_function_name sentinel_first
           (map lit ["low"; "high"]%string)).
  - reflexivity.
  - reflexivity.
  - reflexivity.
Defined.

(** X10.  The name of the sentinel is not in the table: for a sized
    enumeration on a toolchain that meets the contract of the probe, no
    element of the table spans [enumSize]. *)
Theorem table_excludes_sentinel (function_name : EnumDecl -> Z -> chars)
        (d : EnumDecl) (names rest : list chars) (st : State) :
  static st = translation function_name ->
  sized_enum d names rest ->
  signatures_fit function_name d (Z.of_nat (length names)) ->
  probe_contract function_name d names ->
  exists table,
    makeEnumString (EnumTy d) st = Some (table, st) /\
    ~ In enumSize (map (sv_chars (static_chars (static st))) table).
Proof.
  intros Hst C F P. destruct (sized_enum_eligible _ _ _ C) as [S HN].
  eexists. split; [now apply (makeEnumString_eq function_name d _ st Hst S HN F) |].
  rewrite (table_names function_name d names rest st Hst C F P).
  now destruct C as (_ & _ & I & _).
Qed.

Lemma table_excludes_sentinel_witness :
  exists table,
    makeEnumString (EnumTy Fruit) (start msvc_function_name)
    = Some (table, start msvc_function_name) /\
    ~ In enumSize (map (sv_chars (image msvc_function_name)) table).
Proof.
  apply (table_excludes_sentinel msvc_function_name Fruit fruit_names []
           (start msvc_function_name)).
  - reflexivity.
  - exact Fruit_sized.
  - exact Fruit_signatures_fit.
  - now apply msvc_probe_contract with (rest := [enumSize]).
Defined.

(** X11.  Every view of a table [makeEnumString] returns covers the whole
    of the object it points to, from its first character to its last: the
    buffer of a name is exactly as long as the name, without a terminator
    and without room to spare. *)
Theorem table_views_span_buffers (function_name : EnumDecl -> Z -> chars)
        (d : EnumDecl) (N : Z) (st : State) (table : EnumStringArray) :
  static st = translation function_name ->
  to_underlying d enumSize = Some N ->
  signatures_fit function_name d N ->
  makeEnumString (EnumTy d) st = Some (table, st) ->
  Forall (spans_object (static_chars (static st))) table.
Proof.
  intros Hst HN F H.
  assert (S : SizedEnum (EnumTy d) = true).
  { unfold makeEnumString in H. destruct (SizedEnum (EnumTy d)); [reflexivity |].
    discriminate H. }
  rewrite (makeEnumString_eq function_name d N st Hst S HN F) in H.
  injection H as <-. apply Forall_forall. intros v Hv.
  apply in_map_iff in Hv. destruct Hv as (I & <- & HI).
  apply make_index_sequence_In in HI.
  unfold spans_object, enumName_view. simpl. split; [reflexivity |].
  rewrite Hst. simpl. unfold enumName.
  rewrite toEnumName_name_text by auto. reflexivity.
Qed.

Lemma table_views_span_buffers_witness :
  Forall (spans_object (image msvc_function_name))
         (map (enumName_view msvc_function_name Fruit) (make_index_sequence 15)).
Proof.
  apply (table_views_span_buffers msvc_function_name Fruit 15
           (start msvc_function_name)).
  - reflexivity.
  - reflexivity.
  - exact Fruit_signatures_fit.
  - apply (makeEnumString_eq msvc_function_name Fruit 15).
    + reflexivity.
    + reflexivity.
    + reflexivity.
    + exact Fruit_signatures_fit.
Defined.

(** ** main on any toolchain *)


